(** * ElasTag: a shallow embedding of [src/elastag.py] (and of the two
    methods of [src/elasconf.py] that differ from it).

    Python model used throughout:
    - a configuration passed as [**key] is a Python dict from attribute
      names to strings: a [gmap string string], so it never has duplicate
      names;
    - the store is the [dict] that [ElasTag] subclasses: an association
      list in iteration order, from [confid] tuples to Python values;
    - a Python value is either a hashable opaque value ([Atom]) or a
      reference to a mutable container (a [list] or a [set]) living in a
      heap, so that in-place mutation ([prev.append(val)], [prev.add(val)])
      and aliasing between entries are those of Python;
    - [KeyError] and [TypeError] are the exceptions the code can raise;
      every method runs in a small state and exception monad. *)

From Stdlib Require Import String List Sorted Permutation.
From stdpp Require Import base gmap sets list strings.

Open Scope list_scope.

(** ** Data *)

(** A configuration, as received through [**key]. *)
Abbreviation config := (gmap string string).

(** A [confid]: a tuple of (name, value) pairs. *)
Definition key := list (string * string).

Definition loc := nat.

(** Python values: an opaque hashable value, or a reference to a mutable
    (and unhashable) container. *)
Inductive value :=
| Atom (a : string)
| Ref (l : loc).

(** Heap objects: a Python [list] of values, or a Python [set] of hashable
    values. *)
Inductive obj :=
| OList (xs : list value)
| OSet (s : gset string).

Record state := mkState {
  dict : list (key * value);
  heap : gmap loc obj
}.

Inductive exn :=
| KeyError (q : config)       (* raise KeyError('%s does not match ...' % str(key)) *)
| KeyErrorTuple (k : key)     (* dict.__getitem__ on a missing tuple *)
| TypeError.                  (* unhashable type *)

(** ** The state and exception monad *)

Definition M (A : Type) : Type := state -> (exn + A) * state.

Definition ret {A} (a : A) : M A := fun s => (inr a, s).
Definition raise {A} (e : exn) : M A := fun s => (inl e, s).
Definition bind {A B} (m : M A) (f : A -> M B) : M B :=
  fun s => match m s with
           | (inl e, s') => (inl e, s')
           | (inr a, s') => f a s'
           end.

Notation "'let*' x ':=' m 'in' k" := (bind m (fun x => k))
  (at level 200, x name, m at level 100, k at level 200).
Notation "m >>> k" := (bind m (fun _ => k)) (at level 100, right associativity).

Definition gets {A} (f : state -> A) : M A := fun s => (inr (f s), s).

(** ** The underlying [dict] (association list in iteration order) *)

Fixpoint assoc_lookup (k : key) (d : list (key * value)) : option value :=
  match d with
  | [] => None
  | (k', v) :: d' => if decide (k = k') then Some v else assoc_lookup k d'
  end.

(** Assigning an existing key keeps its position; a new key goes last. *)
Fixpoint assoc_insert (k : key) (v : value) (d : list (key * value))
  : list (key * value) :=
  match d with
  | [] => [(k, v)]
  | (k', v') :: d' =>
      if decide (k = k') then (k, v) :: d' else (k', v') :: assoc_insert k v d'
  end.

(** [dict.__contains__], [dict.__getitem__], [dict.__setitem__],
    [dict.keys]. *)
Definition dict_contains (k : key) : M bool :=
  gets (fun s => if assoc_lookup k (dict s) then true else false).

Definition dict_getitem (k : key) : M value :=
  fun s => match assoc_lookup k (dict s) with
           | Some v => (inr v, s)
           | None => (inl (KeyErrorTuple k), s)
           end.

Definition dict_setitem (k : key) (v : value) : M unit :=
  fun s => (inr tt, mkState (assoc_insert k v (dict s)) (heap s)).

Definition dict_keys : M (list key) := gets (fun s => map fst (dict s)).

(** ** The heap of mutable containers *)

(** Creating a new Python object ([[...]] or [set([...])]). *)
Definition alloc (o : obj) : M loc :=
  fun s => let l := fresh (dom (heap s)) in
           (inr l, mkState (dict s) (<[l := o]> (heap s))).

Definition heap_write (l : loc) (o : obj) : M unit :=
  fun s => (inr tt, mkState (dict s) (<[l := o]> (heap s))).

(** [isinstance(v, list)] and [isinstance(v, set)], returning the contents. *)
Definition as_list (h : gmap loc obj) (v : value) : option (list value) :=
  match v with
  | Ref l => match h !! l with Some (OList xs) => Some xs | _ => None end
  | Atom _ => None
  end.

Definition as_set (h : gmap loc obj) (v : value) : option (gset string) :=
  match v with
  | Ref l => match h !! l with Some (OSet xs) => Some xs | _ => None end
  | Atom _ => None
  end.

Definition get_list (v : value) : M (option (list value)) :=
  gets (fun s => as_list (heap s) v).
Definition get_set (v : value) : M (option (gset string)) :=
  gets (fun s => as_set (heap s) v).

(** [hash(v)]: only the opaque values are hashable; lists and sets raise
    [TypeError: unhashable type]. *)
Definition hashable (v : value) : M string :=
  match v with
  | Atom a => ret a
  | Ref _ => raise TypeError
  end.

(** ** [ElasTag.__confid] *)

(** [sorted(kw.keys())]: Python's (stable) sort on strings. *)
Fixpoint insert_str (x : string) (l : list string) : list string :=
  match l with
  | [] => [x]
  | y :: l' => if String.leb x y then x :: y :: l' else y :: insert_str x l'
  end.

Definition sorted_str (l : list string) : list string := fold_right insert_str [] l.

(** [kw[k]] *)
Definition kw_get (kw : config) (k : string) : string := default EmptyString (kw !! k).

(** [tuple([(k, kw[k]) for k in sorted(kw.keys())])] *)
Definition confid (kw : config) : key :=
  map (fun k => (k, kw_get kw k)) (sorted_str (map fst (map_to_list kw))).

(** [set(a) <= set(b)] *)
Definition subset (a b : key) : bool :=
  forallb (fun p => bool_decide (p ∈ b)) a.

(** ** [ElasTag.__translate_key] *)

(** [sorted(..., key=len, reverse=True)]: stable, longest first, ties in
    their original order. *)
Fixpoint insert_len (c : key) (l : list key) : list key :=
  match l with
  | [] => [c]
  | d :: l' => if Nat.leb (length d) (length c) then c :: d :: l' else d :: insert_len c l'
  end.

Definition sorted_len_desc (l : list key) : list key := fold_right insert_len [] l.

Definition translate_key_pure (keys : list key) (kw : config) : option key :=
  let config := confid kw in
  find (fun c => subset c config) (sorted_len_desc keys).

Definition translate_key (kw : config) : M (option key) :=
  let* ks := dict_keys in ret (translate_key_pure ks kw).

(** ** [ElasTag.__getitem__] *)
Definition getitem (kw : config) : M value :=
  let* k := translate_key kw in
  match k with
  | Some k => dict_getitem k
  | None => raise (KeyError kw)
  end.

(** ** [ElasTag.__setitem__] *)
Definition setitem (kw : config) (v : value) : M unit :=
  dict_setitem (confid kw) v.

(** ** [ElasTag.__contains__], as seen through the [in] operator.
    [__contains__] returns the tuple found by [__translate_key] (or
    [None]); [x in el] is [bool] of that result, and the empty tuple [()]
    is false in Python. *)
Definition py_bool_opt_key (o : option key) : bool :=
  match o with
  | None => false
  | Some [] => false
  | Some (_ :: _) => true
  end.

Definition contains (kw : config) : M bool :=
  let* k := translate_key kw in ret (py_bool_opt_key k).

(** [ElasTag.haskey]: exact match. *)
Definition haskey (kw : config) : M bool := dict_contains (confid kw).

Module ElasConf.

(** [ElasConf.__contains__]: [is not None]. *)
Definition contains (kw : config) : M bool :=
  let* k := translate_key kw in
  ret (match k with Some _ => true | None => false end).

(** [ElasConf.haskey]: [key in self]. *)
Definition haskey (kw : config) : M bool := contains kw.

End ElasConf.

(** ** [ElasTag.append] *)
Definition append (kw : config) (val : value) : M value :=
  let config := confid kw in
  let* present := dict_contains config in
  if present then
    let* prev := dict_getitem config in
    let* isl := get_list prev in
    match isl, prev with
    | Some xs, Ref l =>
        heap_write l (OList (xs ++ [val])) >>> ret prev
    | _, _ =>
        let* r := alloc (OList [prev; val]) in
        dict_setitem config (Ref r) >>>
        let* r' := alloc (OList [prev; val]) in
        ret (Ref r')
    end
  else
    let* r := alloc (OList [val]) in
    dict_setitem config (Ref r) >>>
    let* r' := alloc (OList [val]) in
    ret (Ref r').

(** ** [ElasTag.add] *)
Definition add (kw : config) (val : value) : M value :=
  let config := confid kw in
  let* present := dict_contains config in
  if present then
    let* prev := dict_getitem config in
    let* iss := get_set prev in
    match iss, prev with
    | Some xs, Ref l =>
        let* h := hashable val in
        heap_write l (OSet (xs ∪ {[h]})) >>> ret prev
    | _, _ =>
        let* hp := hashable prev in
        let* hv := hashable val in
        let* r := alloc (OSet {[hp; hv]}) in
        dict_setitem config (Ref r) >>>
        let* hp' := hashable prev in
        let* hv' := hashable val in
        let* r' := alloc (OSet {[hp'; hv']}) in
        ret (Ref r')
    end
  else
    let* hv := hashable val in
    let* r := alloc (OSet {[hv]}) in
    dict_setitem config (Ref r) >>>
    let* hv' := hashable val in
    let* r' := alloc (OSet {[hv']}) in
    ret (Ref r').

(** ** [ElasTag.all] and [ElasTag.bag] *)

(** [out]: a Python list or a Python set. *)
Inductive out :=
| OutList (xs : list value)
| OutSet (s : gset string).

(** [set(val)] for a list [val]: every element must be hashable. *)
Fixpoint hash_all (xs : list value) : M (gset string) :=
  match xs with
  | [] => ret ∅
  | x :: xs' => let* h := hashable x in let* hs := hash_all xs' in ret ({[h]} ∪ hs)
  end.

(** The body of the [for c in self.keys()] loop, for one key. *)
Definition all_step (config : key) (as_set : bool) (o : out) (c : key) : M out :=
  if subset config c then
    let* val := dict_getitem c in
    if as_set then
      let* iss := get_set val in
      let* isl := get_list val in
      match o, iss, isl with
      | OutSet acc, Some vs, _ => ret (OutSet (acc ∪ vs))
      | OutSet acc, None, Some xs => let* hs := hash_all xs in ret (OutSet (acc ∪ hs))
      | OutSet acc, None, None => let* h := hashable val in ret (OutSet (acc ∪ {[h]}))
      | OutList _, _, _ => ret o   (* not reached: [out] is a set when [as_set] *)
      end
    else
      let* isl := get_list val in
      match o, isl with
      | OutList acc, Some xs => ret (OutList (acc ++ xs))
      | OutList acc, None => ret (OutList (acc ++ [val]))
      | OutSet _, _ => ret o       (* not reached: [out] is a list otherwise *)
      end
  else ret o.

Fixpoint all_loop (config : key) (as_set : bool) (o : out) (cs : list key) : M out :=
  match cs with
  | [] => ret o
  | c :: cs' => let* o' := all_step config as_set o c in all_loop config as_set o' cs'
  end.

Definition all (key : option config) (as_set : bool) : M out :=
  let key := match key with None => ∅ | Some k => k end in
  let config := confid key in
  let o := if as_set then OutSet ∅ else OutList [] in
  let* cs := dict_keys in
  all_loop config as_set o cs.

Definition bag (key : option config) : M out := all key true.

(** ** Specification-level vocabulary *)

(** The pair-set of a stored key is included in the pair-set of a query. *)
Definition pairs_subset (c : key) (kw : config) : Prop :=
  forall p, In p c -> kw !! p.1 = Some p.2.

(** Every key of the store was produced by [confid] (the only way the
    methods of [ElasTag] write keys). *)
Definition wf_keys (s : state) : Prop :=
  forall c, In c (map fst (dict s)) -> exists kw, c = confid kw.

Definition len_ge (a b : key) : Prop := length b <= length a.

(** What a Python value looks like in a given heap: an opaque value, or
    the current contents of the container it refers to. *)
Inductive pyobs :=
| PAtom (a : string)
| PList (xs : list value)
| PSet (xs : gset string)
| PDangling.

Definition observe (h : gmap loc obj) (v : value) : pyobs :=
  match v with
  | Atom a => PAtom a
  | Ref l => match h !! l with
             | Some (OList xs) => PList xs
             | Some (OSet xs) => PSet xs
             | None => PDangling
             end
  end.

(** The value held by the entry under key [k], as Python sees it. *)
Definition entry (s : state) (k : key) : option pyobs :=
  observe (heap s) <$> assoc_lookup k (dict s).

(** The entry under [k] shares no container with the entry under the
    key of [kw]: a reference it holds is allocated and is not the one
    bound under [confid kw]. *)
Definition no_share (s : state) (kw : config) (k : key) : Prop :=
  forall l, assoc_lookup k (dict s) = Some (Ref l) ->
    is_Some (heap s !! l) /\ assoc_lookup (confid kw) (dict s) <> Some (Ref l).

(** What a write under the key of [kw] may change from [s] to [s']: no
    binding under another key, and no existing container except the one
    bound under the key of [kw]; hence no entry under another key that
    shares no container with it. *)
Definition frame (kw : config) (s s' : state) : Prop :=
  (forall k, k <> confid kw -> assoc_lookup k (dict s') = assoc_lookup k (dict s)) /\
  (forall l, is_Some (heap s !! l) -> assoc_lookup (confid kw) (dict s) <> Some (Ref l) ->
     heap s' !! l = heap s !! l) /\
  (forall k, k <> confid kw -> no_share s kw k -> entry s' k = entry s k).

(** What one entry [val] adds to the result of [all(key)]: its elements
    when it holds a list, the value itself otherwise. *)
Definition list_contrib (h : gmap loc obj) (v : value) : list value :=
  match as_list h v with Some xs => xs | None => [v] end.

(** The hash of an opaque value; [None] for an unhashable one. *)
Definition atom_of (v : value) : option string :=
  match v with Atom a => Some a | Ref _ => None end.

(** What one entry adds to the result of [bag(key)]: a set's members, the
    hashes of a list's elements, or the value itself; [None] when some of
    these is unhashable. *)
Definition set_contrib (h : gmap loc obj) (v : value) : option (gset string) :=
  match as_set h v with
  | Some vs => Some vs
  | None =>
      match as_list h v with
      | Some xs => list_to_set <$> mapM atom_of xs
      | None => (fun a => {[a]}) <$> atom_of v
      end
  end.

(** ** Running the doctest of [elastag.py] *)

Definition empty_state : state := mkState [] ∅.

Definition cfg (l : list (string * string)) : config := list_to_map l.

Definition run {A} (m : M A) : (exn + A) * state := m empty_state.

Definition doctest_store : M unit :=
  setitem (cfg [("lang", "es")]) (Atom "es") >>>
  setitem (cfg [("lang", "en")]) (Atom "en") >>>
  setitem (cfg [("lang", "en"); ("sector", "construction")]) (Atom "en-construction") >>>
  setitem (cfg [("lang", "en"); ("sector", "consulting")]) (Atom "en-consulting") >>>
  setitem (cfg [("lang", "en"); ("company", "comp")]) (Atom "en-comp") >>>
  setitem (cfg [("lang", "en"); ("company", "comp"); ("sector", "construction")])
    (Atom "en-comp-construction").

Definition doctest_state : state := snd (run doctest_store).

Definition cfg_en : config := cfg [("lang", "en")].
Definition cfg_en_constr : config := cfg [("lang", "en"); ("sector", "construction")].
Definition cfg_en_comp_constr : config :=
  cfg [("lang", "en"); ("company", "comp"); ("sector", "construction")].
Definition cfg_en_retail : config := cfg [("lang", "en"); ("sector", "retail")].

Definition cfg_es : config := cfg [("lang", "es")].

Definition cfg_a1 : config := cfg [("a", "1")].
Definition cfg_a2 : config := cfg [("a", "2")].

(** [el.append({'a': '1'}, 'x'); r = el.append({'a': '1'}, 'y');
    el[{'a': '2'}] = r]: both entries now hold the same list object. *)
Definition alias_setup : M unit :=
  append cfg_a1 (Atom "x") >>>
  (let* r := append cfg_a1 (Atom "y") in setitem cfg_a2 r).

Definition alias_state : state := snd (run alias_setup).

(** [el[{}] = 'x']: a value stored under the empty configuration. *)
Definition store_empty_cfg : M unit := setitem ∅ (Atom "x").

Example doctest_get1 :
  fst (run (doctest_store >>> getitem (cfg [("lang", "en"); ("sector", "retail")])))
  = inr (Atom "en").
Proof. vm_compute. reflexivity. Qed.

Example doctest_get2 :
  fst (run (doctest_store >>> getitem (cfg [("sector", "construction"); ("lang", "en"); ("company", "comp")])))
  = inr (Atom "en-comp-construction").
Proof. vm_compute. reflexivity. Qed.

Example doctest_get3 :
  fst (run (doctest_store >>> getitem (cfg [("sector", "retail")])))
  = inl (KeyError (cfg [("sector", "retail")])).
Proof. vm_compute. reflexivity. Qed.

Example spec_elastic_vs_exact :
  fst (run (doctest_store >>> contains cfg_en_retail)) = inr true /\
  fst (run (doctest_store >>> haskey cfg_en_retail)) = inr false.
Proof. vm_compute. split; reflexivity. Qed.

Example spec_append_accumulation :
  entry (snd (run (doctest_store >>> append cfg_en_constr (Atom "x") >>>
                   append cfg_en_constr (Atom "y"))))
        (confid cfg_en_constr)
  = Some (PList [Atom "en-construction"; Atom "x"; Atom "y"]).
Proof. vm_compute. reflexivity. Qed.

(** The obsolete [ElasConf.haskey] is the elastic check, not the exact one. *)
Example elasconf_haskey_elastic :
  fst (run (doctest_store >>> ElasConf.haskey cfg_en_retail)) = inr true.
Proof. vm_compute. reflexivity. Qed.

Example doctest_haskey :
  fst (run (doctest_store >>> haskey (cfg [("lang", "en"); ("sector", "retail")]))) = inr false.
Proof. vm_compute. reflexivity. Qed.

(** ** Canonicalisation *)

Lemma insert_str_perm (x : string) (l : list string) : insert_str x l ≡ₚ x :: l.
Proof.
  induction l as [|y l IH]; simpl; [done|].
  destruct (String.leb x y); [done|].
  rewrite IH. apply perm_swap.
Qed.

Lemma sorted_str_perm (l : list string) : sorted_str l ≡ₚ l.
Proof. induction l as [|x l IH]; simpl; [done|]. by rewrite insert_str_perm, IH. Qed.

Lemma confid_In (kw : config) (p : string * string) :
  In p (confid kw) <-> kw !! p.1 = Some p.2.
Proof.
  destruct p as [k v]; simpl. unfold confid. rewrite in_map_iff. split.
  - intros (k' & Heq & Hin). injection Heq as Hk Hv. subst k' v.
    apply (Permutation_in _ (sorted_str_perm _)), in_map_iff in Hin.
    destruct Hin as ([k1 v1] & Hk1 & Hin). simpl in Hk1. subst k1.
    apply list_elem_of_In, elem_of_map_to_list in Hin.
    unfold kw_get. by rewrite Hin.
  - intros H. exists k. split; [unfold kw_get; by rewrite H|].
    apply (Permutation_in _ (Permutation_sym (sorted_str_perm _))), in_map_iff.
    exists (k, v). split; [done|]. by apply list_elem_of_In, elem_of_map_to_list.
Qed.

Lemma length_confid (kw : config) : length (confid kw) = size kw.
Proof.
  unfold confid. rewrite length_map, (Permutation_length (sorted_str_perm _)).
  by rewrite length_map, length_map_to_list.
Qed.

Lemma subset_spec (a b : key) : subset a b = true <-> forall p, In p a -> In p b.
Proof.
  unfold subset. rewrite forallb_forall.
  setoid_rewrite bool_decide_eq_true. by setoid_rewrite list_elem_of_In.
Qed.

Lemma subset_confid (c : key) (kw : config) :
  subset c (confid kw) = true <-> pairs_subset c kw.
Proof.
  rewrite subset_spec. unfold pairs_subset. by setoid_rewrite confid_In.
Qed.

(** Stored keys with the pair-set of the query are the query's own key. *)
Lemma confid_subset_map (kw kw' : config) :
  pairs_subset (confid kw') kw -> kw' ⊆ kw.
Proof.
  intros H. apply map_subseteq_spec. intros i x Hi.
  apply (H (i, x)), confid_In. done.
Qed.

(** ** Specificity order of [__translate_key] *)

Lemma insert_len_perm (c : key) (l : list key) : insert_len c l ≡ₚ c :: l.
Proof.
  induction l as [|d l IH]; simpl; [done|].
  destruct (Nat.leb _ _); [done|]. rewrite IH. apply perm_swap.
Qed.

Lemma sorted_len_desc_perm (l : list key) : sorted_len_desc l ≡ₚ l.
Proof. induction l as [|x l IH]; simpl; [done|]. by rewrite insert_len_perm, IH. Qed.

Lemma insert_len_sorted (c : key) (l : list key) :
  StronglySorted len_ge l -> StronglySorted len_ge (insert_len c l).
Proof.
  induction 1 as [|d l Hs IH Hf]; simpl.
  - repeat constructor.
  - destruct (Nat.leb (length d) (length c)) eqn:E.
    + apply Nat.leb_le in E. constructor; [by constructor|].
      constructor; [done|]. eapply Forall_impl; [exact Hf|].
      unfold len_ge. intros x Hx. lia.
    + apply Nat.leb_gt in E. constructor; [done|].
      apply List.Forall_forall. intros x Hx.
      apply (Permutation_in _ (insert_len_perm _ _)) in Hx as [<-|Hx].
      * unfold len_ge. lia.
      * rewrite List.Forall_forall in Hf. by apply Hf.
Qed.

Lemma sorted_len_desc_sorted (l : list key) : StronglySorted len_ge (sorted_len_desc l).
Proof. induction l; simpl; [constructor|]. by apply insert_len_sorted. Qed.

Lemma find_sorted_max (f : key -> bool) (l : list key) (c : key) :
  StronglySorted len_ge l -> find f l = Some c ->
  forall d, In d l -> f d = true -> length d <= length c.
Proof.
  induction 1 as [|x l Hs IH Hf]; simpl; [done|].
  destruct (f x) eqn:E.
  - intros [= <-] d [<-|Hin] Hd; [lia|].
    rewrite List.Forall_forall in Hf. apply Hf in Hin. unfold len_ge in Hin. lia.
  - intros Hc d [<-|Hin] Hd; [congruence|]. eauto.
Qed.

Lemma translate_key_pure_some (ks : list key) (kw : config) (c : key) :
  translate_key_pure ks kw = Some c ->
  In c ks /\ pairs_subset c kw /\
  forall d, In d ks -> pairs_subset d kw -> length d <= length c.
Proof.
  unfold translate_key_pure. intros H.
  pose proof (find_some _ _ H) as [Hin Hc].
  split; [exact (Permutation_in _ (sorted_len_desc_perm _) Hin)|].
  split; [by apply subset_confid|].
  intros d Hd Hsub. eapply find_sorted_max; [apply sorted_len_desc_sorted|exact H| |].
  - exact (Permutation_in _ (Permutation_sym (sorted_len_desc_perm _)) Hd).
  - by apply subset_confid.
Qed.

Lemma translate_key_pure_none (ks : list key) (kw : config) :
  translate_key_pure ks kw = None <-> ~ exists c, In c ks /\ pairs_subset c kw.
Proof.
  unfold translate_key_pure. split.
  - intros H (c & Hin & Hsub).
    pose proof (find_none _ _ H c) as Hf. cbv beta in Hf.
    rewrite (proj2 (subset_confid c kw) Hsub) in Hf.
    discriminate (Hf (Permutation_in _ (Permutation_sym (sorted_len_desc_perm _)) Hin)).
  - intros Hn. destruct (find _ _) as [c|] eqn:E; [|done].
    exfalso. apply Hn. exists c.
    pose proof (find_some _ _ E) as [Hin Hc].
    split; [exact (Permutation_in _ (sorted_len_desc_perm _) Hin)|].
    by apply subset_confid.
Qed.

(** ** The association list *)

Lemma assoc_lookup_In (k : key) (d : list (key * value)) :
  In k (map fst d) <-> exists v, assoc_lookup k d = Some v.
Proof.
  induction d as [|[k' v'] d IH]; simpl.
  - split; [done|]. by intros [? ?].
  - case_decide as E; subst.
    + split; [eauto|auto].
    + rewrite <- IH. split; [intros [->|?]; [done|done]|auto].
Qed.

Lemma assoc_lookup_insert_eq (k : key) (v : value) (d : list (key * value)) :
  assoc_lookup k (assoc_insert k v d) = Some v.
Proof.
  induction d as [|[k' v'] d IH]; simpl; [by rewrite decide_True|].
  case_decide; simpl; [by rewrite decide_True|].
  by rewrite decide_False.
Qed.

Lemma assoc_lookup_insert_ne (k k' : key) (v : value) (d : list (key * value)) :
  k' <> k -> assoc_lookup k' (assoc_insert k v d) = assoc_lookup k' d.
Proof.
  intros Hne. induction d as [|[k'' v'] d IH]; simpl.
  - by rewrite decide_False.
  - case_decide as E; subst; simpl.
    + by rewrite !decide_False.
    + case_decide; [done|]. done.
Qed.

Lemma assoc_insert_keys (k : key) (v : value) (d : list (key * value)) (c : key) :
  In c (map fst (assoc_insert k v d)) -> c = k \/ In c (map fst d).
Proof.
  induction d as [|[k' v'] d IH]; simpl; [intuition|].
  case_decide; simpl; [intuition|]. intuition.
Qed.

(** ** [__getitem__] *)

Lemma getitem_eq (kw : config) (s : state) :
  getitem kw s =
  match translate_key_pure (map fst (dict s)) kw with
  | Some k => dict_getitem k s
  | None => (inl (KeyError kw), s)
  end.
Proof.
  cbv [getitem bind translate_key dict_keys gets ret raise].
  by destruct (translate_key_pure _ kw).
Qed.

(** When the query's own key is stored, [get] returns its value. *)
Lemma getitem_exact (s : state) (kw : config) (w : value) :
  wf_keys s -> assoc_lookup (confid kw) (dict s) = Some w ->
  getitem kw s = (inr w, s).
Proof.
  intros Hwf Hw. rewrite getitem_eq.
  assert (Hin : In (confid kw) (map fst (dict s))) by (apply assoc_lookup_In; eauto).
  destruct (translate_key_pure _ kw) as [c|] eqn:E.
  - apply translate_key_pure_some in E as (Hc & Hsub & Hmax).
    destruct (Hwf c Hc) as [kw' ->].
    assert (Hle : length (confid kw) <= length (confid kw')).
    { apply Hmax; [done|]. intros p. by rewrite confid_In. }
    rewrite !length_confid in Hle.
    assert (kw' = kw) as ->.
    { apply map_subseteq_size_eq; [by apply confid_subset_map|done]. }
    unfold dict_getitem. by rewrite Hw.
  - exfalso. apply (proj1 (translate_key_pure_none _ _) E).
    exists (confid kw). split; [done|]. intros p. by rewrite confid_In.
Qed.

(** ** Well-formedness of keys *)

Lemma wf_keys_empty : wf_keys empty_state.
Proof. intros c []. Qed.

Lemma wf_keys_insert (s : state) (kw : config) (v : value) (h : gmap loc obj) :
  wf_keys s -> wf_keys (mkState (assoc_insert (confid kw) v (dict s)) h).
Proof.
  intros Hwf c Hc. simpl in Hc.
  destruct (assoc_insert_keys _ _ _ _ Hc) as [->|Hin]; eauto.
Qed.

Lemma wf_keys_setitem (s : state) (kw : config) (v : value) :
  wf_keys s -> wf_keys (snd (setitem kw v s)).
Proof. apply wf_keys_insert. Qed.

Lemma setitem_seq {A} (m : M A) (kw : config) (v : value) (s : state) :
  (setitem kw v >>> m) s = m (snd (setitem kw v s)).
Proof. reflexivity. Qed.

Lemma wf_keys_doctest_state : wf_keys doctest_state.
Proof.
  unfold doctest_state, run, doctest_store. rewrite !setitem_seq.
  repeat apply wf_keys_setitem. apply wf_keys_empty.
Qed.

(** ** C1, C2, C9: retrieval *)

(** C1. When [get(query)] succeeds it returns the value stored under a key
    whose pair-set is a subset of the query's pair-set and whose number of
    pairs is maximal among all such stored keys; in particular, with
    configurations A ⊂ B ⊂ C all stored, [get] on C returns C's value. *)
Theorem getitem_most_specific (s : state) (kw : config) :
  (forall v, fst (getitem kw s) = inr v ->
     exists c, In c (map fst (dict s)) /\ assoc_lookup c (dict s) = Some v /\
       pairs_subset c kw /\
       forall d, In d (map fst (dict s)) -> pairs_subset d kw -> length d <= length c) /\
  (wf_keys s -> forall (A B : config) (w : value), A ⊂ B -> B ⊂ kw ->
     In (confid A) (map fst (dict s)) -> In (confid B) (map fst (dict s)) ->
     assoc_lookup (confid kw) (dict s) = Some w ->
     fst (getitem kw s) = inr w).
Proof.
  split.
  - intros v. rewrite getitem_eq.
    destruct (translate_key_pure _ kw) as [c|] eqn:E; [|done].
    apply translate_key_pure_some in E as (Hc & Hsub & Hmax).
    unfold dict_getitem. destruct (assoc_lookup c (dict s)) as [v'|] eqn:Hl; [|done].
    simpl. intros [= ->]. exists c. auto.
  - intros Hwf A B w _ _ _ _ Hw. by rewrite (getitem_exact s kw w Hwf Hw).
Qed.

Lemma getitem_most_specific_witness :
  (fst (getitem cfg_en_retail doctest_state) = inr (Atom "en") /\
   exists c, In c (map fst (dict doctest_state)) /\
     assoc_lookup c (dict doctest_state) = Some (Atom "en") /\
     pairs_subset c cfg_en_retail /\
     forall d, In d (map fst (dict doctest_state)) -> pairs_subset d cfg_en_retail ->
       length d <= length c) /\
  (wf_keys doctest_state /\ cfg_en ⊂ cfg_en_constr /\ cfg_en_constr ⊂ cfg_en_comp_constr /\
   In (confid cfg_en) (map fst (dict doctest_state)) /\
   In (confid cfg_en_constr) (map fst (dict doctest_state)) /\
   assoc_lookup (confid cfg_en_comp_constr) (dict doctest_state) = Some (Atom "en-comp-construction") /\
   fst (getitem cfg_en_comp_constr doctest_state) = inr (Atom "en-comp-construction")).
Proof.
  assert (Hget : fst (getitem cfg_en_retail doctest_state) = inr (Atom "en"))
    by (vm_compute; reflexivity).
  assert (HAB : cfg_en ⊂ cfg_en_constr) by (apply (bool_decide_unpack _); vm_compute; reflexivity).
  assert (HBC : cfg_en_constr ⊂ cfg_en_comp_constr)
    by (apply (bool_decide_unpack _); vm_compute; reflexivity).
  assert (HA : In (confid cfg_en) (map fst (dict doctest_state)))
    by (apply assoc_lookup_In; eexists; vm_compute; reflexivity).
  assert (HB : In (confid cfg_en_constr) (map fst (dict doctest_state)))
    by (apply assoc_lookup_In; eexists; vm_compute; reflexivity).
  assert (HC : assoc_lookup (confid cfg_en_comp_constr) (dict doctest_state)
               = Some (Atom "en-comp-construction")) by (vm_compute; reflexivity).
  split.
  - split; [exact Hget|].
    exact (proj1 (getitem_most_specific doctest_state cfg_en_retail) _ Hget).
  - refine (conj wf_keys_doctest_state (conj HAB (conj HBC (conj HA (conj HB (conj HC _)))))).
    exact (proj2 (getitem_most_specific doctest_state cfg_en_comp_constr)
             wf_keys_doctest_state cfg_en cfg_en_constr _ HAB HBC HA HB HC).
Defined.

(** C2. [get(query)] fails if and only if no stored configuration's
    pair-set is a subset of the query's pair-set; the error is the
    [KeyError] naming the query, and the store is unchanged whether [get]
    succeeds or fails. *)
Theorem getitem_notfound (s : state) (kw : config) :
  snd (getitem kw s) = s /\
  ((exists e, fst (getitem kw s) = inl e) <->
     ~ exists c, In c (map fst (dict s)) /\ pairs_subset c kw) /\
  (forall e, fst (getitem kw s) = inl e -> e = KeyError kw).
Proof.
  rewrite !getitem_eq.
  destruct (translate_key_pure _ kw) as [c|] eqn:E.
  - pose proof (translate_key_pure_some _ _ _ E) as (Hc & Hsub & _).
    destruct (proj1 (assoc_lookup_In _ _) Hc) as [v Hv].
    unfold dict_getitem. rewrite Hv. simpl.
    split; [done|]. split.
    + split; [by intros [e ?]|]. intros Hn. exfalso. apply Hn. eauto.
    + done.
  - simpl. split; [done|]. split.
    + split; [intros _; by apply translate_key_pure_none|eauto].
    + by intros e [= <-].
Qed.

(** C9. Round trip: after [set(K, V)], [get(K)] returns [V], for any store
    whose keys were written by the store's own methods. *)
Theorem set_get_roundtrip (s : state) (kw : config) (v : value) :
  wf_keys s -> fst ((setitem kw v >>> getitem kw) s) = inr v.
Proof.
  intros Hwf. rewrite setitem_seq.
  rewrite (getitem_exact _ kw v); [done|by apply wf_keys_setitem|].
  apply assoc_lookup_insert_eq.
Qed.

Lemma set_get_roundtrip_witness :
  wf_keys doctest_state /\
  fst ((setitem cfg_en_retail (Atom "x") >>> getitem cfg_en_retail) doctest_state) = inr (Atom "x").
Proof.
  split; [exact wf_keys_doctest_state|].
  exact (set_get_roundtrip doctest_state cfg_en_retail (Atom "x") wf_keys_doctest_state).
Defined.

(** ** C3, C4: containment *)

(** C3 (code defect). [x in el] is [bool] of the tuple returned by
    [__translate_key]; when the match found is the empty configuration
    [()], that tuple is false in Python. With only [{}] stored,
    [{'lang': 'en'} in el] is [False] although [el[{'lang': 'en'}]]
    returns the stored value and [el.haskey({})] is [True]; [ElasConf]'s
    [__contains__] ([is not None]) answers [True]. *)
Theorem contains_empty_config_false :
  fst ((store_empty_cfg >>> getitem cfg_en) empty_state) = inr (Atom "x") /\
  fst ((store_empty_cfg >>> contains cfg_en) empty_state) = inr false /\
  fst ((store_empty_cfg >>> haskey ∅) empty_state) = inr true /\
  fst ((store_empty_cfg >>> contains ∅) empty_state) = inr false /\
  fst ((store_empty_cfg >>> ElasConf.contains cfg_en) empty_state) = inr true.
Proof. vm_compute. repeat split. Qed.

(** [ElasConf.__contains__] is the elastic check: true iff some stored
    configuration's pair-set is included in the query's, and it never fails. *)
Lemma elasconf_contains_spec (s : state) (kw : config) :
  snd (ElasConf.contains kw s) = s /\
  (fst (ElasConf.contains kw s) = inr true <->
     exists c, In c (map fst (dict s)) /\ pairs_subset c kw) /\
  (fst (ElasConf.contains kw s) = inr false <->
     ~ exists c, In c (map fst (dict s)) /\ pairs_subset c kw).
Proof.
  cbv [ElasConf.contains bind translate_key dict_keys gets ret]. simpl.
  destruct (translate_key_pure _ kw) as [c|] eqn:E; simpl.
  - pose proof (translate_key_pure_some _ _ _ E) as (Hc & Hsub & _).
    split; [done|]. split; [split; [eauto|done]|].
    split; [done|]. intros Hn. exfalso. eauto.
  - pose proof (proj1 (translate_key_pure_none _ _) E) as Hn.
    split; [done|]. split; [split; [done|intros ?; by exfalso]|].
    split; [done|done].
Qed.

(** C4. [haskey(query)] (exact containment) is true iff the canonicalized
    query is itself a key of the store; it never fails and leaves the store
    unchanged. No subset search is done. *)
Theorem haskey_exact (s : state) (kw : config) :
  snd (haskey kw s) = s /\
  (exists b, fst (haskey kw s) = inr b) /\
  (fst (haskey kw s) = inr true <-> In (confid kw) (map fst (dict s))).
Proof.
  cbv [haskey dict_contains gets]. simpl. rewrite assoc_lookup_In.
  destruct (assoc_lookup (confid kw) (dict s)); simpl.
  - split; [done|]. split; [eauto|]. split; eauto.
  - split; [done|]. split; [eauto|]. split; [done|]. by intros [? ?].
Qed.

(** ** Fresh objects *)

Lemma fresh_lookup (h : gmap loc obj) : h !! fresh (dom h) = None.
Proof. apply not_elem_of_dom_1, is_fresh. Qed.

Lemma fresh_insert_ne (h : gmap loc obj) (l : loc) (o : obj) :
  fresh (dom (<[l:=o]> h)) <> l.
Proof.
  intros E. apply (is_fresh (dom (<[l:=o]> h))). rewrite E.
  apply elem_of_dom. rewrite lookup_insert_eq. by eexists.
Qed.

(** ** C5: [append] *)

(** The three branches of [append]. *)
Lemma append_list (s : state) (kw : config) (v : value) (l : loc) (xs : list value) :
  assoc_lookup (confid kw) (dict s) = Some (Ref l) -> heap s !! l = Some (OList xs) ->
  append kw v s = (inr (Ref l), mkState (dict s) (<[l := OList (xs ++ [v])]> (heap s))).
Proof.
  intros Hl Hh.
  cbv [append bind dict_contains gets dict_getitem get_list ret heap_write alloc dict_setitem].
  rewrite Hl. cbv beta iota. rewrite Hl.
  assert (Hal : as_list (heap s) (Ref l) = Some xs) by (simpl; by rewrite Hh).
  rewrite Hal. reflexivity.
Qed.

Lemma append_promote (s : state) (kw : config) (v prev : value) :
  assoc_lookup (confid kw) (dict s) = Some prev -> as_list (heap s) prev = None ->
  let l1 := fresh (dom (heap s)) in
  let h1 := <[l1 := OList [prev; v]]> (heap s) in
  let l2 := fresh (dom h1) in
  append kw v s =
    (inr (Ref l2), mkState (assoc_insert (confid kw) (Ref l1) (dict s)) (<[l2 := OList [prev; v]]> h1)).
Proof.
  intros Hl Hal.
  cbv [append bind dict_contains gets dict_getitem get_list ret heap_write alloc dict_setitem].
  rewrite Hl. cbv beta iota. rewrite Hl. rewrite Hal. by destruct prev.
Qed.

Lemma append_new (s : state) (kw : config) (v : value) :
  assoc_lookup (confid kw) (dict s) = None ->
  let l1 := fresh (dom (heap s)) in
  let h1 := <[l1 := OList [v]]> (heap s) in
  let l2 := fresh (dom h1) in
  append kw v s =
    (inr (Ref l2), mkState (assoc_insert (confid kw) (Ref l1) (dict s)) (<[l2 := OList [v]]> h1)).
Proof.
  intros Hl.
  cbv [append bind dict_contains gets dict_getitem get_list ret heap_write alloc dict_setitem].
  rewrite Hl. reflexivity.
Qed.

(** C5. [append(key, value)]: with no entry the entry becomes [[value]];
    on a list entry [value] is appended in place after the prior elements;
    on any other entry it becomes [[prior_value, value]]. In every branch
    the returned list has the same contents as the entry after the call,
    and ends with [value]. *)
Theorem append_spec (s : state) (kw : config) (v : value) :
  exists r L,
    fst (append kw v s) = inr r /\
    entry (snd (append kw v s)) (confid kw) = Some (PList L) /\
    observe (heap (snd (append kw v s))) r = PList L /\
    last L = Some v /\
    match assoc_lookup (confid kw) (dict s) with
    | None => L = [v]
    | Some prev => match as_list (heap s) prev with
                   | Some xs => L = xs ++ [v]
                   | None => L = [prev; v]
                   end
    end.
Proof.
  destruct (assoc_lookup (confid kw) (dict s)) as [prev|] eqn:Hl.
  - destruct (as_list (heap s) prev) as [xs|] eqn:Hal.
    + destruct prev as [a|l]; [discriminate|].
      assert (Hh : heap s !! l = Some (OList xs))
        by (simpl in Hal; destruct (heap s !! l) as [[]|]; congruence).
      rewrite (append_list s kw v l xs Hl Hh). unfold entry. simpl.
      rewrite Hl. simpl. rewrite lookup_insert_eq.
      exists (Ref l), (xs ++ [v]). rewrite last_snoc. simpl.
      by rewrite lookup_insert_eq.
    + rewrite (append_promote s kw v prev Hl Hal). unfold entry. simpl.
      rewrite assoc_lookup_insert_eq. simpl.
      rewrite lookup_insert_ne by apply fresh_insert_ne.
      rewrite !lookup_insert_eq. eexists _, _.
      split_and!; [done|done|simpl; by rewrite lookup_insert_eq|done|done].
  - rewrite (append_new s kw v Hl). unfold entry. simpl.
    rewrite assoc_lookup_insert_eq. simpl.
    rewrite lookup_insert_ne by apply fresh_insert_ne.
    rewrite !lookup_insert_eq. eexists _, _.
    split_and!; [done|done|simpl; by rewrite lookup_insert_eq|done|done].
Qed.

(** ** [add] *)

(** The branches of [add]. *)
Lemma add_set (s : state) (kw : config) (val : value) (l : loc) (xs : gset string) :
  assoc_lookup (confid kw) (dict s) = Some (Ref l) -> heap s !! l = Some (OSet xs) ->
  add kw val s =
    match val with
    | Atom a => (inr (Ref l), mkState (dict s) (<[l := OSet (xs ∪ {[a]})]> (heap s)))
    | Ref _ => (inl TypeError, s)
    end.
Proof.
  intros Hl Hh.
  cbv [add bind dict_contains gets dict_getitem get_set ret heap_write alloc dict_setitem].
  rewrite Hl. cbv beta iota. rewrite Hl.
  assert (Has : as_set (heap s) (Ref l) = Some xs) by (simpl; by rewrite Hh).
  rewrite Has. by destruct val.
Qed.

Lemma add_promote (s : state) (kw : config) (val prev : value) :
  assoc_lookup (confid kw) (dict s) = Some prev -> as_set (heap s) prev = None ->
  add kw val s =
    match prev, val with
    | Atom p, Atom a =>
        let l1 := fresh (dom (heap s)) in
        let h1 := <[l1 := OSet {[p; a]}]> (heap s) in
        let l2 := fresh (dom h1) in
        (inr (Ref l2), mkState (assoc_insert (confid kw) (Ref l1) (dict s))
                               (<[l2 := OSet {[p; a]}]> h1))
    | _, _ => (inl TypeError, s)
    end.
Proof.
  intros Hl Has.
  cbv [add bind dict_contains gets dict_getitem get_set ret heap_write alloc dict_setitem].
  rewrite Hl. cbv beta iota. rewrite Hl, Has.
  destruct prev, val; reflexivity.
Qed.

Lemma add_new (s : state) (kw : config) (val : value) :
  assoc_lookup (confid kw) (dict s) = None ->
  add kw val s =
    match val with
    | Atom a =>
        let l1 := fresh (dom (heap s)) in
        let h1 := <[l1 := OSet {[a]}]> (heap s) in
        let l2 := fresh (dom h1) in
        (inr (Ref l2), mkState (assoc_insert (confid kw) (Ref l1) (dict s))
                               (<[l2 := OSet {[a]}]> h1))
    | Ref _ => (inl TypeError, s)
    end.
Proof.
  intros Hl.
  cbv [add bind dict_contains gets dict_getitem get_set ret heap_write alloc dict_setitem].
  rewrite Hl. by destruct val.
Qed.

(** C6 (code defect). [add] on an entry that holds a list (written by
    [append]) evaluates [set([prev, val])] with the list [prev] as an
    element, and Python raises [TypeError: unhashable type: 'list']. *)
Theorem add_on_list_entry_fails :
  fst ((append (cfg [("lang", "es")]) (Atom "b") >>> add (cfg [("lang", "es")]) (Atom "a"))
         empty_state) = inl TypeError.
Proof. vm_compute. reflexivity. Qed.

(** C7. From no entry under [k], [add(k, v)] twice leaves [Set({v})]
    (the second call changes nothing), and a further [add(k, w)] leaves
    [Set({v, w})]. *)
Theorem add_idempotent (s : state) (kw : config) (a b : string) :
  assoc_lookup (confid kw) (dict s) = None ->
  let s1 := snd (add kw (Atom a) s) in
  let s2 := snd (add kw (Atom a) s1) in
  let s3 := snd (add kw (Atom b) s2) in
  entry s1 (confid kw) = Some (PSet {[a]}) /\
  entry s2 (confid kw) = entry s1 (confid kw) /\
  size ({[a]} : gset string) = 1 /\
  entry s3 (confid kw) = Some (PSet {[a; b]}).
Proof.
  intros Hl s1 s2 s3.
  set (l1 := fresh (dom (heap s))).
  set (h1 := <[l1 := OSet {[a]}]> (heap s)).
  assert (Hs1 : s1 = mkState (assoc_insert (confid kw) (Ref l1) (dict s))
                             (<[fresh (dom h1) := OSet {[a]}]> h1))
    by (unfold s1; by rewrite (add_new s kw (Atom a) Hl)).
  assert (Hl1 : assoc_lookup (confid kw) (dict s1) = Some (Ref l1))
    by (rewrite Hs1; apply assoc_lookup_insert_eq).
  assert (Hh1 : heap s1 !! l1 = Some (OSet {[a]})).
  { rewrite Hs1. simpl. rewrite lookup_insert_ne by apply fresh_insert_ne.
    apply lookup_insert_eq. }
  assert (Hs2 : s2 = mkState (dict s1) (<[l1 := OSet ({[a]} ∪ {[a]})]> (heap s1)))
    by (unfold s2; by rewrite (add_set s1 kw (Atom a) l1 _ Hl1 Hh1)).
  rewrite union_idemp_L in Hs2.
  assert (Hl2 : assoc_lookup (confid kw) (dict s2) = Some (Ref l1)) by (by rewrite Hs2).
  assert (Hh2 : heap s2 !! l1 = Some (OSet {[a]})) by (rewrite Hs2; apply lookup_insert_eq).
  assert (Hs3 : s3 = mkState (dict s2) (<[l1 := OSet ({[a]} ∪ {[b]})]> (heap s2)))
    by (unfold s3; by rewrite (add_set s2 kw (Atom b) l1 _ Hl2 Hh2)).
  assert (Hsz : size ({[a]} : gset string) = 1) by apply size_singleton.
  split_and!; [| |done|].
  - unfold entry. rewrite Hl1. simpl. by rewrite Hh1.
  - unfold entry. rewrite Hl1, Hl2. simpl. by rewrite Hh1, Hh2.
  - unfold entry. rewrite Hs3. simpl. rewrite Hl2. simpl. by rewrite lookup_insert_eq.
Qed.

Lemma add_idempotent_witness :
  assoc_lookup (confid cfg_es) (dict empty_state) = None /\
  (let s1 := snd (add cfg_es (Atom "es1") empty_state) in
   let s2 := snd (add cfg_es (Atom "es1") s1) in
   let s3 := snd (add cfg_es (Atom "es2") s2) in
   entry s1 (confid cfg_es) = Some (PSet {["es1"]}) /\
   entry s2 (confid cfg_es) = entry s1 (confid cfg_es) /\
   size ({["es1"]} : gset string) = 1 /\
   entry s3 (confid cfg_es) = Some (PSet {["es1"; "es2"]})).
Proof.
  split; [reflexivity|].
  exact (add_idempotent empty_state cfg_es "es1" "es2" eq_refl).
Defined.

(** ** C8: [all] and [bag] *)

(** C8 (code defect). [all] flattens list entries but appends a set entry
    as one element (the set object itself): after [add({'lang': 'es'},
    'es1')], [all()] is [[set(['es1'])]], not [['es1']], while [bag()] is
    [set(['es1'])]. *)
Theorem all_set_entry_not_flattened :
  let s := snd (add cfg_es (Atom "es1") empty_state) in
  exists l,
    fst (all None false s) = inr (OutList [Ref l]) /\
    observe (heap s) (Ref l) = PSet {["es1"]} /\
    fst (bag None s) = inr (OutSet {["es1"]}).
Proof. exists 0. vm_compute. split_and!; reflexivity. Qed.

(** ** C10: what the mutators touch *)

Lemma frame_intro (kw : config) (s s' : state) :
  (forall k, k <> confid kw -> assoc_lookup k (dict s') = assoc_lookup k (dict s)) ->
  (forall l, is_Some (heap s !! l) -> assoc_lookup (confid kw) (dict s) <> Some (Ref l) ->
     heap s' !! l = heap s !! l) ->
  frame kw s s'.
Proof.
  intros Hd Hh. split; [done|]. split; [done|].
  intros k Hk Hns. unfold entry. rewrite (Hd k Hk).
  destruct (assoc_lookup k (dict s)) as [[a|l]|] eqn:E; simpl; [done| |done].
  destruct (Hns l E) as [Hs Hne]. by rewrite (Hh l Hs Hne).
Qed.

Lemma fresh2_frame (h : gmap loc obj) (o1 o2 : obj) (l : loc) :
  is_Some (h !! l) ->
  <[fresh (dom (<[fresh (dom h) := o1]> h)) := o2]> (<[fresh (dom h) := o1]> h) !! l = h !! l.
Proof.
  intros Hs.
  assert (H1 : fresh (dom h) <> l).
  { intros E. rewrite <- E, fresh_lookup in Hs. by destruct Hs. }
  rewrite lookup_insert_ne; [by rewrite lookup_insert_ne|].
  intros E. apply (is_fresh (dom (<[fresh (dom h) := o1]> h))). rewrite E.
  apply elem_of_dom. by rewrite lookup_insert_ne.
Qed.

(** A branch that binds two fresh containers under the key of [kw]. *)
Lemma frame_fresh2 (kw : config) (s : state) (r : value) (o1 o2 : obj) :
  frame kw s (mkState (assoc_insert (confid kw) r (dict s))
                      (<[fresh (dom (<[fresh (dom (heap s)) := o1]> (heap s))) := o2]>
                         (<[fresh (dom (heap s)) := o1]> (heap s)))).
Proof.
  apply frame_intro; simpl.
  - intros k Hk. by apply assoc_lookup_insert_ne.
  - intros l Hs _. by apply fresh2_frame.
Qed.

(** A branch that mutates the container bound under the key of [kw]. *)
Lemma frame_write (kw : config) (s : state) (l : loc) (o : obj) :
  assoc_lookup (confid kw) (dict s) = Some (Ref l) ->
  frame kw s (mkState (dict s) (<[l := o]> (heap s))).
Proof.
  intros Hl. apply frame_intro; simpl; [done|].
  intros l' _ Hne. apply lookup_insert_ne. intros <-. by apply Hne.
Qed.

Lemma frame_refl (kw : config) (s : state) : frame kw s s.
Proof. by apply frame_intro. Qed.

(** C10 (amended). [set], [append] and [add] never rebind, create or
    remove an entry under a key other than [confid C], and the only
    existing container they may change is the one bound under [confid C]
    ([append] on a list and [add] on a set mutate it in place). So an
    entry under another key keeps its value unless it holds that very
    container object (aliasing). *)
Theorem mutators_frame (s : state) (kw : config) (v : value) :
  frame kw s (snd (setitem kw v s)) /\
  frame kw s (snd (append kw v s)) /\
  frame kw s (snd (add kw v s)).
Proof.
  split_and!.
  - apply frame_intro; simpl; [|done].
    intros k Hk. by apply assoc_lookup_insert_ne.
  - destruct (assoc_lookup (confid kw) (dict s)) as [prev|] eqn:Hl.
    + destruct (as_list (heap s) prev) as [xs|] eqn:Hal.
      * destruct prev as [a|l]; [discriminate|].
        assert (Hh : heap s !! l = Some (OList xs))
          by (simpl in Hal; destruct (heap s !! l) as [[]|]; congruence).
        rewrite (append_list s kw v l xs Hl Hh). by apply frame_write.
      * rewrite (append_promote s kw v prev Hl Hal). apply frame_fresh2.
    + rewrite (append_new s kw v Hl). apply frame_fresh2.
  - destruct (assoc_lookup (confid kw) (dict s)) as [prev|] eqn:Hl.
    + destruct (as_set (heap s) prev) as [xs|] eqn:Has.
      * destruct prev as [a|l]; [discriminate|].
        assert (Hh : heap s !! l = Some (OSet xs))
          by (simpl in Has; destruct (heap s !! l) as [[]|]; congruence).
        rewrite (add_set s kw v l xs Hl Hh).
        destruct v; [by apply frame_write|apply frame_refl].
      * rewrite (add_promote s kw v prev Hl Has).
        destruct prev, v; try apply frame_refl. apply frame_fresh2.
    + rewrite (add_new s kw v Hl). destruct v; [apply frame_fresh2|apply frame_refl].
Qed.

(** C10 as stated fails: after the Python session of [alias_setup], where
    [{'a': '1'}] and [{'a': '2'}] hold the same list object,
    [append({'a': '1'}, 'z')] also changes the value seen under
    [{'a': '2'}]. *)
Lemma mutators_frame_counterexample :
  ~ (forall (kw : config) (v : value) (s : state) (k : key),
       k <> confid kw -> entry (snd (append kw v s)) k = entry s k).
Proof.
  intros H.
  assert (Hne : confid cfg_a2 <> confid cfg_a1) by (vm_compute; congruence).
  pose proof (H cfg_a1 (Atom "z") alias_state _ Hne) as E.
  vm_compute in E. congruence.
Qed.

(** ** Extra: [__confid] *)

(** The key of a configuration determines it. *)
Theorem confid_inj (kw1 kw2 : config) : confid kw1 = confid kw2 <-> kw1 = kw2.
Proof.
  split; [|by intros ->].
  intros E. apply map_eq. intros i.
  destruct (kw1 !! i) as [x|] eqn:E1, (kw2 !! i) as [y|] eqn:E2.
  - pose proof (proj2 (confid_In kw1 (i, x)) E1) as H. rewrite E in H.
    apply confid_In in H. simpl in H. congruence.
  - pose proof (proj2 (confid_In kw1 (i, x)) E1) as H. rewrite E in H.
    apply confid_In in H. simpl in H. congruence.
  - pose proof (proj2 (confid_In kw2 (i, y)) E2) as H. rewrite <- E in H.
    apply confid_In in H. simpl in H. congruence.
  - done.
Qed.

Lemma str_compare_lt_trans (a b c : string) :
  String.compare a b = Lt -> String.compare b c = Lt -> String.compare a c = Lt.
Proof.
  revert b c. induction a as [|x a IH]; intros [|y b] [|z c]; simpl; try congruence.
  unfold Ascii.compare.
  destruct (N.compare_spec (Ascii.N_of_ascii x) (Ascii.N_of_ascii y)) as [Hxy|Hxy|Hxy];
  destruct (N.compare_spec (Ascii.N_of_ascii y) (Ascii.N_of_ascii z)) as [Hyz|Hyz|Hyz];
  intros H1 H2; try congruence;
  destruct (N.compare_spec (Ascii.N_of_ascii x) (Ascii.N_of_ascii z)); try lia; eauto.
Qed.

Lemma str_leb_trans (a b c : string) :
  String.leb a b = true -> String.leb b c = true -> String.leb a c = true.
Proof.
  unfold String.leb.
  destruct (String.compare a b) eqn:Hab; [| |discriminate].
  - apply String.compare_eq_iff in Hab. subst. done.
  - destruct (String.compare b c) eqn:Hbc; [| |discriminate].
    + apply String.compare_eq_iff in Hbc. subst. by rewrite Hab.
    + by rewrite (str_compare_lt_trans a b c Hab Hbc).
Qed.

Lemma insert_str_perm_In (x y : string) (l : list string) :
  In y (insert_str x l) -> y = x \/ In y l.
Proof. intros H. apply (Permutation_in _ (insert_str_perm x l)) in H. simpl in H. intuition. Qed.

Lemma insert_str_sorted (x : string) (l : list string) :
  StronglySorted (fun a b => String.leb a b = true) l ->
  StronglySorted (fun a b => String.leb a b = true) (insert_str x l).
Proof.
  induction 1 as [|y l Hs IH Hf]; simpl.
  - repeat constructor.
  - destruct (String.leb x y) eqn:E.
    + constructor; [by constructor|].
      constructor; [done|]. eapply Forall_impl; [exact Hf|].
      intros z Hz. by apply (str_leb_trans x y z).
    + assert (E' : String.leb y x = true)
        by (destruct (String.leb_total x y); congruence).
      constructor; [done|].
      apply List.Forall_forall. intros z Hz.
      apply insert_str_perm_In in Hz as [->|Hz]; [done|].
      rewrite List.Forall_forall in Hf. by apply Hf.
Qed.

Lemma sorted_str_sorted (l : list string) :
  StronglySorted (fun a b => String.leb a b = true) (sorted_str l).
Proof. induction l; simpl; [constructor|]. by apply insert_str_sorted. Qed.

Lemma StronglySorted_NoDup_strict {A} (R : A -> A -> Prop) (l : list A) :
  StronglySorted R l -> NoDup l -> StronglySorted (fun a b => R a b /\ a <> b) l.
Proof.
  induction 1 as [|x l Hs IH Hf]; intros Hnd; constructor.
  - apply IH. by inversion Hnd.
  - inversion Hnd as [|? ? Hx _]; subst.
    apply List.Forall_forall. intros y Hy. split.
    + rewrite List.Forall_forall in Hf. by apply Hf.
    + intros <-. apply Hx. first [done | by apply list_elem_of_In].
Qed.

Lemma StronglySorted_map {A B} (R : B -> B -> Prop) (f : A -> B) (l : list A) :
  StronglySorted (fun a b => R (f a) (f b)) l -> StronglySorted R (map f l).
Proof.
  induction 1 as [|x l Hs IH Hf]; simpl; constructor; [done|].
  apply List.Forall_map. exact Hf.
Qed.

Lemma StronglySorted_weaken {A} (R R' : A -> A -> Prop) (l : list A) :
  (forall a b, R a b -> R' a b) -> StronglySorted R l -> StronglySorted R' l.
Proof.
  intros HR. induction 1 as [|x l Hs IH Hf]; constructor; [done|].
  eapply Forall_impl; [exact Hf|]. auto.
Qed.

(** The tuple built by [__confid] lists the pairs in strictly increasing
    order of attribute name. *)
Theorem confid_sorted (kw : config) :
  StronglySorted (fun p q => String.ltb p.1 q.1 = true) (confid kw).
Proof.
  unfold confid. apply StronglySorted_map. simpl.
  assert (Hnd : NoDup (sorted_str (map fst (map_to_list kw)))).
  { rewrite sorted_str_perm. exact (NoDup_fst_map_to_list kw). }
  pose proof (StronglySorted_NoDup_strict _ _ (sorted_str_sorted _) Hnd) as H.
  eapply StronglySorted_weaken; [|exact H]. simpl.
  intros a b [Hle Hne]. unfold String.ltb. unfold String.leb in Hle.
  destruct (String.compare a b) eqn:E; try done.
  by apply String.compare_eq_iff in E.
Qed.

(** ** Extra: the order in which [__translate_key] scans the keys *)

Lemma find_In_key (f : key -> bool) (l : list key) (e : key) : find f l = Some e -> In e l.
Proof. intros H. by apply find_some in H as [? _]. Qed.

Lemma find_insert_len (f : key -> bool) (x : key) (L : list key) :
  StronglySorted len_ge L ->
  find f (insert_len x L) =
    if f x then match find f L with
                | Some d => if Nat.ltb (length x) (length d) then Some d else Some x
                | None => Some x
                end
    else find f L.
Proof.
  induction 1 as [|d L Hs IH Hf]; cbn [insert_len].
  - simpl. by destruct (f x).
  - destruct (Nat.leb (length d) (length x)) eqn:Hdx.
    + apply Nat.leb_le in Hdx.
      change (find f (x :: d :: L)) with (if f x then Some x else find f (d :: L)).
      destruct (f x); [|done].
      destruct (find f (d :: L)) as [e|] eqn:E; [|done].
      apply find_In_key in E as [Ed|He].
      * subst e. destruct (Nat.ltb_spec (length x) (length d)); [lia|done].
      * rewrite List.Forall_forall in Hf. apply Hf in He. unfold len_ge in He.
        destruct (Nat.ltb_spec (length x) (length e)); [lia|done].
    + apply Nat.leb_gt in Hdx. cbn [find]. rewrite IH.
      destruct (f d), (f x); try done.
      by destruct (Nat.ltb_spec (length x) (length d)); [|lia].
Qed.

Lemma translate_key_pure_cons (x : key) (l : list key) (kw : config) :
  translate_key_pure (x :: l) kw =
    if subset x (confid kw) then
      match translate_key_pure l kw with
      | Some d => if Nat.ltb (length x) (length d) then Some d else Some x
      | None => Some x
      end
    else translate_key_pure l kw.
Proof.
  exact (find_insert_len (fun c => subset c (confid kw)) x _ (sorted_len_desc_sorted l)).
Qed.

Lemma translate_key_pure_first (ks : list key) (kw : config) (c : key) :
  translate_key_pure ks kw = Some c ->
  exists pre post, ks = pre ++ c :: post /\
    forall d, In d pre -> pairs_subset d kw -> length d < length c.
Proof.
  revert c. induction ks as [|x l IH]; intros c H; [done|].
  rewrite translate_key_pure_cons in H.
  destruct (subset x (confid kw)) eqn:Hx.
  - destruct (translate_key_pure l kw) as [d|] eqn:Hl.
    + destruct (Nat.ltb_spec (length x) (length d)) as [Hlt|Hge]; injection H as <-.
      * destruct (IH d eq_refl) as (pre & post & -> & Hpre).
        exists (x :: pre), post. split; [done|].
        intros e [<-|He] Hs; [done|]. by apply Hpre.
      * exists [], l. split; [done|]. by intros ? [].
    + injection H as <-. exists [], l. split; [done|]. by intros ? [].
  - destruct (IH c H) as (pre & post & -> & Hpre).
    exists (x :: pre), post. split; [done|].
    intros e [<-|He] Hs; [|by apply Hpre].
    apply subset_confid in Hs. congruence.
Qed.

(** Ties between qualifying keys of the same length go to the key met
    first in the dict's iteration order: the key whose value [get]
    returns qualifies, every qualifying key before it is strictly shorter,
    and none after it is longer. *)
Theorem getitem_tie_break (s : state) (kw : config) (v : value) :
  fst (getitem kw s) = inr v ->
  exists pre c post,
    map fst (dict s) = pre ++ c :: post /\
    assoc_lookup c (dict s) = Some v /\
    pairs_subset c kw /\
    (forall d, In d pre -> pairs_subset d kw -> length d < length c) /\
    (forall d, In d post -> pairs_subset d kw -> length d <= length c).
Proof.
  rewrite getitem_eq.
  destruct (translate_key_pure _ kw) as [c|] eqn:E; [|done].
  pose proof (translate_key_pure_some _ _ _ E) as (Hc & Hsub & Hmax).
  destruct (translate_key_pure_first _ _ _ E) as (pre & post & Hks & Hpre).
  unfold dict_getitem. destruct (assoc_lookup c (dict s)) as [v'|] eqn:Hl; [|done].
  simpl. intros [= ->]. exists pre, c, post. split_and!; try done.
  intros d Hd Hs. apply Hmax; [|done]. rewrite Hks. apply in_or_app. by right; right.
Qed.

Lemma getitem_tie_break_witness :
  fst (getitem (cfg [("lang", "en"); ("sector", "consulting"); ("company", "comp")])
         doctest_state) = inr (Atom "en-consulting") /\
  exists pre c post,
    map fst (dict doctest_state) = pre ++ c :: post /\
    assoc_lookup c (dict doctest_state) = Some (Atom "en-consulting") /\
    pairs_subset c (cfg [("lang", "en"); ("sector", "consulting"); ("company", "comp")]) /\
    (forall d, In d pre ->
       pairs_subset d (cfg [("lang", "en"); ("sector", "consulting"); ("company", "comp")]) ->
       length d < length c) /\
    (forall d, In d post ->
       pairs_subset d (cfg [("lang", "en"); ("sector", "consulting"); ("company", "comp")]) ->
       length d <= length c).
Proof.
  refine (conj _ (getitem_tie_break doctest_state _ _ _));
    vm_compute; reflexivity.
Defined.

(** ** Extra: [in] on an [ElasTag], and the two [ElasConf] checks *)

(** [key in el] never raises and leaves the store unchanged; it is true
    exactly when some stored key with at least one pair has all its pairs
    in the query (a stored empty key is found but reads as false). *)
Theorem contains_nonempty_subset (s : state) (kw : config) :
  exists b, contains kw s = (inr b, s) /\
    (b = true <-> exists c, In c (map fst (dict s)) /\ c <> [] /\ pairs_subset c kw).
Proof.
  cbv [contains bind translate_key dict_keys gets ret].
  destruct (translate_key_pure _ kw) as [c|] eqn:E.
  - pose proof (translate_key_pure_some _ _ _ E) as (Hc & Hsub & Hmax).
    eexists. split; [reflexivity|]. destruct c as [|p c]; simpl.
    + split; [done|]. intros (d & Hd & Hne & Hs).
      specialize (Hmax d Hd Hs). simpl in Hmax.
      destruct d; [done|simpl in Hmax; lia].
    + split; [|done]. intros _. exists (p :: c). done.
  - eexists. split; [reflexivity|]. simpl. split; [done|].
    intros (d & Hd & _ & Hs). exfalso. apply (proj1 (translate_key_pure_none _ _) E). eauto.
Qed.

(** [ElasConf]'s [in] and its obsolete [haskey] are the same elastic
    check: both never raise, leave the store unchanged, and are true
    exactly when some stored key (the empty one included) has all its
    pairs in the query. *)
Theorem elasconf_contains_haskey_elastic (s : state) (kw : config) :
  ElasConf.haskey kw s = ElasConf.contains kw s /\
  exists b, ElasConf.contains kw s = (inr b, s) /\
    (b = true <-> exists c, In c (map fst (dict s)) /\ pairs_subset c kw).
Proof.
  split; [reflexivity|].
  destruct (elasconf_contains_spec s kw) as (Hs & Ht & Hf).
  destruct (ElasConf.contains kw s) as [[e|b] s'] eqn:E.
  - exfalso. cbv [ElasConf.contains bind translate_key dict_keys gets ret] in E.
    destruct (translate_key_pure _ kw); discriminate.
  - simpl in Hs. subst s'. exists b. split; [done|]. simpl in Ht.
    rewrite <- Ht. split; [by intros ->|by intros [= ->]].
Qed.

(** ** Extra: exact and elastic lookups together *)

(** When [haskey(q)] holds, [get(q)] returns the value stored under the
    canonical form of [q] itself, not under some other, shorter key. *)
Theorem haskey_getitem (s : state) (kw : config) :
  wf_keys s -> fst (haskey kw s) = inr true ->
  exists w, assoc_lookup (confid kw) (dict s) = Some w /\ getitem kw s = (inr w, s).
Proof.
  intros Hwf. cbv [haskey dict_contains gets]. simpl.
  destruct (assoc_lookup (confid kw) (dict s)) as [w|] eqn:Hw; [|done].
  intros _. exists w. split; [done|]. by apply getitem_exact.
Qed.

Lemma haskey_getitem_witness :
  wf_keys doctest_state /\ fst (haskey cfg_en_constr doctest_state) = inr true /\
  exists w, assoc_lookup (confid cfg_en_constr) (dict doctest_state) = Some w /\
    getitem cfg_en_constr doctest_state = (inr w, doctest_state).
Proof.
  refine (conj wf_keys_doctest_state (conj _ (haskey_getitem _ _ wf_keys_doctest_state _)));
    vm_compute; reflexivity.
Defined.

(** ** Extra: how writes compose with [get] *)





(** The store that [append] and [add] leave behind: untouched, or with
    one assignment to the canonical key. *)
Lemma append_dict (s : state) (kw : config) (v : value) :
  dict (snd (append kw v s)) = dict s \/
  exists r, dict (snd (append kw v s)) = assoc_insert (confid kw) r (dict s).
Proof.
  destruct (assoc_lookup (confid kw) (dict s)) as [prev|] eqn:Hl.
  - destruct (as_list (heap s) prev) as [xs|] eqn:Hal.
    + destruct prev as [a|l]; [discriminate|]. simpl in Hal.
      destruct (heap s !! l) as [[ys|ys]|] eqn:Hh; try discriminate.
      injection Hal as ->. left. by rewrite (append_list s kw v l xs Hl Hh).
    + right. rewrite (append_promote s kw v prev Hl Hal). by eexists.
  - right. rewrite (append_new s kw v Hl). by eexists.
Qed.

Lemma add_dict (s : state) (kw : config) (v : value) :
  dict (snd (add kw v s)) = dict s \/
  exists r, dict (snd (add kw v s)) = assoc_insert (confid kw) r (dict s).
Proof.
  destruct (assoc_lookup (confid kw) (dict s)) as [prev|] eqn:Hl.
  - destruct (as_set (heap s) prev) as [xs|] eqn:Has.
    + destruct prev as [a|l]; [discriminate|]. simpl in Has.
      destruct (heap s !! l) as [[ys|ys]|] eqn:Hh; try discriminate.
      injection Has as ->. left. rewrite (add_set s kw v l xs Hl Hh). by destruct v.
    + rewrite (add_promote s kw v prev Hl Has).
      destruct prev, v; [right; by eexists|left; done..].
  - rewrite (add_new s kw v Hl). destruct v; [right; by eexists|by left].
Qed.



(** Every key the store holds is the canonical tuple of some
    configuration, and [el[k] = v], [append] and [add] keep it so (also
    when they raise). *)
Theorem wf_keys_mutators (s : state) (kw : config) (v : value) :
  wf_keys s ->
  wf_keys (snd (setitem kw v s)) /\ wf_keys (snd (append kw v s)) /\
  wf_keys (snd (add kw v s)).
Proof.
  intros Hwf.
  assert (Hd : forall s', dict s' = dict s \/
                 (exists r, dict s' = assoc_insert (confid kw) r (dict s)) -> wf_keys s').
  { intros s' [Hd|[r Hd]] c Hc; rewrite Hd in Hc; [by apply Hwf|].
    destruct (assoc_insert_keys _ _ _ _ Hc) as [->|Hin]; eauto. }
  split_and!; apply Hd; [right; by eexists|apply append_dict|apply add_dict].
Qed.

Lemma wf_keys_mutators_witness :
  wf_keys doctest_state /\
  wf_keys (snd (setitem cfg_es (Atom "v") doctest_state)) /\
  wf_keys (snd (append cfg_es (Atom "v") doctest_state)) /\
  wf_keys (snd (add cfg_es (Atom "v") doctest_state)).
Proof.
  exact (conj wf_keys_doctest_state
           (wf_keys_mutators doctest_state cfg_es (Atom "v") wf_keys_doctest_state)).
Defined.

(** ** Extra: [all] and [bag] *)

Lemma assoc_lookup_NoDup (d : list (key * value)) (c : key) (v : value) :
  NoDup (map fst d) -> In (c, v) d -> assoc_lookup c d = Some v.
Proof.
  induction d as [|[k w] d IH]; simpl; [done|].
  intros Hnd [Heq|Hin]; [injection Heq as <- <-; by rewrite decide_True|].
  apply NoDup_cons in Hnd as [Hk Hnd].
  case_decide as E; [subst k|by apply IH].
  exfalso. apply Hk. apply list_elem_of_In, in_map_iff. by exists (c, v).
Qed.

Lemma all_loop_list (s : state) (config : key) (d : list (key * value)) (acc : list value) :
  (forall c v, In (c, v) d -> assoc_lookup c (dict s) = Some v) ->
  all_loop config false (OutList acc) (map fst d) s =
    (inr (OutList (acc ++ flat_map (fun e => if subset config e.1 then list_contrib (heap s) e.2 else [])
                                  d)), s).
Proof.
  revert acc. induction d as [|[c v] d IH]; intros acc Hd; simpl.
  - by rewrite app_nil_r.
  - assert (Hv : assoc_lookup c (dict s) = Some v) by (apply Hd; by left).
    assert (Hd' : forall c v, In (c, v) d -> assoc_lookup c (dict s) = Some v)
      by (intros; apply Hd; by right).
    cbv [all_step bind dict_getitem get_list gets ret].
    destruct (subset config c).
    + rewrite Hv. unfold list_contrib.
      destruct (as_list (heap s) v) as [xs|];
        rewrite IH by done; by rewrite app_assoc.
    + rewrite IH by done. done.
Qed.

(** [all(key)] (list mode) never raises and leaves the store unchanged;
    it concatenates, in the dict's iteration order, the entries whose key
    holds every pair of [key] ([None] standing for [{}], which selects
    every entry): a list entry contributes its elements, any other entry
    itself. *)
Theorem all_list_mode (s : state) (key : option config) :
  NoDup (map fst (dict s)) ->
  all key false s =
    (inr (OutList (flat_map (fun e => if subset (confid (default ∅ key)) e.1
                                      then list_contrib (heap s) e.2 else [])
                            (dict s))), s).
Proof.
  intros Hnd.
  cbv [all bind dict_keys gets].
  replace (match key with None => ∅ | Some k => k end) with (default ∅ key)
    by (by destruct key).
  rewrite all_loop_list; [done|].
  intros c v Hin. by apply assoc_lookup_NoDup.
Qed.

Lemma NoDup_doctest_state : NoDup (map fst (dict doctest_state)).
Proof. apply (bool_decide_unpack _). vm_compute. reflexivity. Qed.

Lemma all_list_mode_witness :
  NoDup (map fst (dict doctest_state)) /\
  all (Some cfg_en) false doctest_state =
    (inr (OutList (flat_map (fun e => if subset (confid (default ∅ (Some cfg_en))) e.1
                                      then list_contrib (heap doctest_state) e.2 else [])
                            (dict doctest_state))), doctest_state).
Proof.
  exact (conj NoDup_doctest_state (all_list_mode doctest_state (Some cfg_en) NoDup_doctest_state)).
Defined.

Lemma hash_all_eq (xs : list value) (s : state) :
  hash_all xs s =
    (match mapM atom_of xs with
     | Some l => inr (list_to_set l)
     | None => inl TypeError
     end, s).
Proof.
  induction xs as [|x xs IH]; [done|].
  destruct x as [a|l]; [|done].
  cbn [hash_all]. cbv [bind hashable ret]. rewrite IH. simpl.
  by destruct (mapM atom_of xs).
Qed.

Lemma all_step_set (s : state) (config c : key) (v : value) (acc : gset string) :
  assoc_lookup c (dict s) = Some v ->
  all_step config true (OutSet acc) c s =
    (if subset config c then
       match set_contrib (heap s) v with
       | Some vs => inr (OutSet (acc ∪ vs))
       | None => inl TypeError
       end
     else inr (OutSet acc), s).
Proof.
  intros Hv. cbv [all_step bind dict_getitem get_set get_list gets ret].
  destruct (subset config c); [|done]. rewrite Hv. unfold set_contrib.
  destruct (as_set (heap s) v); [done|].
  destruct (as_list (heap s) v) as [xs|].
  - rewrite hash_all_eq. by destruct (mapM atom_of xs).
  - by destruct v.
Qed.

Lemma all_loop_set (s : state) (config : key) (d : list (key * value)) (acc : gset string) :
  (forall c v, In (c, v) d -> assoc_lookup c (dict s) = Some v) ->
  all_loop config true (OutSet acc) (map fst d) s =
    (match mapM (fun e => if subset config e.1 then set_contrib (heap s) e.2 else Some ∅) d with
     | Some ss => inr (OutSet (acc ∪ ⋃ ss))
     | None => inl TypeError
     end, s).
Proof.
  revert acc. induction d as [|[c v] d IH]; intros acc Hd.
  - simpl. by rewrite union_empty_r_L.
  - assert (Hv : assoc_lookup c (dict s) = Some v) by (apply Hd; by left).
    assert (Hd' : forall c v, In (c, v) d -> assoc_lookup c (dict s) = Some v)
      by (intros; apply Hd; by right).
    cbn [map all_loop fst]. unfold bind. rewrite (all_step_set s config c v acc Hv).
    cbn [mapM fst snd].
    destruct (subset config c); simpl.
    + destruct (set_contrib (heap s) v) as [vs|]; simpl; [|done].
      rewrite IH by done.
      destruct (mapM _ d); simpl; [|done]. by rewrite union_assoc_L.
    + rewrite IH by done.
      destruct (mapM _ d); simpl; [|done]. by rewrite union_empty_l_L.
Qed.

(** [bag(key)] leaves the store unchanged. It raises [TypeError] exactly
    when one of the entries whose key holds every pair of [key] is
    unhashable (or is a list with an unhashable element); otherwise it
    returns the union, over those entries, of a set's members, a list's
    elements or the value itself. *)
Theorem bag_spec (s : state) (key : option config) :
  NoDup (map fst (dict s)) ->
  bag key s =
    (match mapM (fun e => if subset (confid (default ∅ key)) e.1
                          then set_contrib (heap s) e.2 else Some ∅) (dict s) with
     | Some ss => inr (OutSet (⋃ ss))
     | None => inl TypeError
     end, s).
Proof.
  intros Hnd.
  cbv [bag all bind dict_keys gets].
  replace (match key with None => ∅ | Some k => k end) with (default ∅ key)
    by (by destruct key).
  rewrite all_loop_set; [|intros c v Hin; by apply assoc_lookup_NoDup].
  destruct (mapM _ (dict s)); [by rewrite union_empty_l_L|done].
Qed.

Lemma bag_spec_witness :
  NoDup (map fst (dict doctest_state)) /\
  bag (Some cfg_en) doctest_state =
    (match mapM (fun e => if subset (confid (default ∅ (Some cfg_en))) e.1
                          then set_contrib (heap doctest_state) e.2 else Some ∅)
                (dict doctest_state) with
     | Some ss => inr (OutSet (⋃ ss))
     | None => inl TypeError
     end, doctest_state).
Proof.
  exact (conj NoDup_doctest_state (bag_spec doctest_state (Some cfg_en) NoDup_doctest_state)).
Defined.

(** ** Extra: what [append] and [add] return, and when [add] raises *)

Lemma lookup_fresh2 (h : gmap loc obj) (o1 o2 : obj) :
  let l1 := fresh (dom h) in
  let h1 := <[l1 := o1]> h in
  let l2 := fresh (dom h1) in
  l2 <> l1 /\ (<[l2 := o2]> h1) !! l2 = Some o2 /\ (<[l2 := o2]> h1) !! l1 = Some o1.
Proof.
  intros l1 h1 l2.
  assert (Hne : l2 <> l1) by apply fresh_insert_ne.
  split_and!; [done|apply lookup_insert_eq|].
  rewrite lookup_insert_ne by congruence. apply lookup_insert_eq.
Qed.

(** The list [append] returns is the very object stored under the key
    exactly when the entry already held a list; otherwise it is a second,
    distinct list with the same contents, so mutating it does not change
    the store. *)
Theorem append_result_alias (s : state) (kw : config) (v : value) :
  exists lr ls,
    fst (append kw v s) = inr (Ref lr) /\
    assoc_lookup (confid kw) (dict (snd (append kw v s))) = Some (Ref ls) /\
    heap (snd (append kw v s)) !! lr = heap (snd (append kw v s)) !! ls /\
    (lr = ls <-> exists prev xs, assoc_lookup (confid kw) (dict s) = Some prev /\
                                 as_list (heap s) prev = Some xs).
Proof.
  destruct (assoc_lookup (confid kw) (dict s)) as [prev|] eqn:Hl.
  - destruct (as_list (heap s) prev) as [xs|] eqn:Hal.
    + destruct prev as [a|l]; [discriminate|].
      assert (Hh : heap s !! l = Some (OList xs))
        by (simpl in Hal; destruct (heap s !! l) as [[]|]; congruence).
      rewrite (append_list s kw v l xs Hl Hh). simpl.
      exists l, l. split_and!; [done|done|done|]. split; [|done]. intros _. eauto.
    + rewrite (append_promote s kw v prev Hl Hal). simpl.
      destruct (lookup_fresh2 (heap s) (OList [prev; v]) (OList [prev; v])) as (Hne & H2 & H1).
      eexists _, _. split_and!; [done|apply assoc_lookup_insert_eq|by rewrite H2, H1|].
      split; [done|]. intros (prev' & xs & [= <-] & Hxs). congruence.
  - rewrite (append_new s kw v Hl). simpl.
    destruct (lookup_fresh2 (heap s) (OList [v]) (OList [v])) as (Hne & H2 & H1).
    eexists _, _. split_and!; [done|apply assoc_lookup_insert_eq|by rewrite H2, H1|].
    split; [done|]. by intros (prev' & xs & ? & _).
Qed.

(** [add] raises nothing but [TypeError], and only before touching the
    store; it raises exactly when [val] is unhashable (a list or a set) or
    when the entry exists, is not a set, and is itself unhashable (a list,
    as [append] leaves it). *)
Theorem add_type_error (s : state) (kw : config) (v : value) :
  (forall e s', add kw v s = (inl e, s') -> e = TypeError /\ s' = s) /\
  ((exists s', add kw v s = (inl TypeError, s')) <->
     atom_of v = None \/
     exists prev, assoc_lookup (confid kw) (dict s) = Some prev /\
                  as_set (heap s) prev = None /\ atom_of prev = None).
Proof.
  destruct (assoc_lookup (confid kw) (dict s)) as [prev|] eqn:Hl.
  - destruct (as_set (heap s) prev) as [xs|] eqn:Has.
    + destruct prev as [a|l]; [discriminate|].
      assert (Hh : heap s !! l = Some (OSet xs))
        by (simpl in Has; destruct (heap s !! l) as [[]|]; congruence).
      rewrite (add_set s kw v l xs Hl Hh).
      destruct v as [a|l']; simpl.
      * split; [by intros ?? [=]|]. split; [by intros [? [=]]|].
        intros [[=]|(prev' & [= <-] & Hn & _)]. congruence.
      * split; [by intros ?? [= -> ->]|]. split; [by left|by eexists].
    + rewrite (add_promote s kw v prev Hl Has).
      destruct prev as [p|l], v as [a|l']; simpl.
      * split; [by intros ?? [=]|]. split; [by intros [? [=]]|].
        by intros [[=]|(prev' & [= <-] & _ & [=])].
      * split; [by intros ?? [= -> ->]|]. split; [by left|by eexists].
      * split; [by intros ?? [= -> ->]|]. split; [intros _; right; by eexists|by eexists].
      * split; [by intros ?? [= -> ->]|]. split; [by left|by eexists].
  - rewrite (add_new s kw v Hl). destruct v as [a|l']; simpl.
    + split; [by intros ?? [=]|]. split; [by intros [? [=]]|].
      by intros [[=]|(prev' & [=] & _)].
    + split; [by intros ?? [= -> ->]|]. split; [by left|by eexists].
Qed.

(** When [add(key, val)] succeeds, [val] is an opaque (hashable) value
    [a], the entry under [key] is a set holding [a], and the result shows
    the same set: the previous set's members plus [a], [{prev, a}] for a
    previous opaque value, or [{a}] for a new key. *)
Theorem add_success (s : state) (kw : config) (v r : value) :
  fst (add kw v s) = inr r ->
  exists a S, v = Atom a /\
    entry (snd (add kw v s)) (confid kw) = Some (PSet S) /\
    observe (heap (snd (add kw v s))) r = PSet S /\
    match assoc_lookup (confid kw) (dict s) with
    | None => S = {[a]}
    | Some prev => match as_set (heap s) prev with
                   | Some xs => S = xs ∪ {[a]}
                   | None => exists p, prev = Atom p /\ S = {[p; a]}
                   end
    end.
Proof.
  unfold entry.
  destruct (assoc_lookup (confid kw) (dict s)) as [prev|] eqn:Hl.
  - destruct (as_set (heap s) prev) as [xs|] eqn:Has.
    + destruct prev as [p|l]; [discriminate|].
      assert (Hh : heap s !! l = Some (OSet xs))
        by (simpl in Has; destruct (heap s !! l) as [[]|]; congruence).
      rewrite (add_set s kw v l xs Hl Hh).
      destruct v as [a|l']; simpl; [|done]. intros [= <-].
      exists a, (xs ∪ {[a]}). rewrite Hl. simpl. by rewrite lookup_insert_eq.
    + rewrite (add_promote s kw v prev Hl Has).
      destruct prev as [p|l], v as [a|l']; simpl; try done. intros [= <-].
      destruct (lookup_fresh2 (heap s) (OSet {[p; a]}) (OSet {[p; a]})) as (Hne & H2 & H1).
      exists a, {[p; a]}. rewrite assoc_lookup_insert_eq. simpl.
      rewrite H2, H1. split_and!; [done..|by exists p].
  - rewrite (add_new s kw v Hl). destruct v as [a|l']; simpl; [|done]. intros [= <-].
    destruct (lookup_fresh2 (heap s) (OSet {[a]}) (OSet {[a]})) as (Hne & H2 & H1).
    exists a, {[a]}. rewrite assoc_lookup_insert_eq. simpl. by rewrite H2, H1.
Qed.

Lemma add_success_witness :
  fst (add cfg_en_constr (Atom "y") doctest_state) =
    inr (Ref (fresh (dom (<[fresh (dom (heap doctest_state)) :=
                             OSet {["en-construction"; "y"]}]> (heap doctest_state))))) /\
  exists a S, Atom "y" = Atom a /\
    entry (snd (add cfg_en_constr (Atom "y") doctest_state)) (confid cfg_en_constr) = Some (PSet S) /\
    observe (heap (snd (add cfg_en_constr (Atom "y") doctest_state)))
      (Ref (fresh (dom (<[fresh (dom (heap doctest_state)) :=
                            OSet {["en-construction"; "y"]}]> (heap doctest_state))))) = PSet S /\
    match assoc_lookup (confid cfg_en_constr) (dict doctest_state) with
    | None => S = {[a]}
    | Some prev => match as_set (heap doctest_state) prev with
                   | Some xs => S = xs ∪ {[a]}
                   | None => exists p, prev = Atom p /\ S = {[p; a]}
                   end
    end.
Proof.
  assert (H : fst (add cfg_en_constr (Atom "y") doctest_state) =
    inr (Ref (fresh (dom (<[fresh (dom (heap doctest_state)) :=
                             OSet {["en-construction"; "y"]}]> (heap doctest_state)))))).
  { vm_compute. reflexivity. }
  exact (conj H (add_success _ _ _ _ H)).
Defined.

(** The set [add] returns is the very object stored under the key
    exactly when the entry already held a set; otherwise it is a second,
    distinct set with the same members. *)
Theorem add_result_alias (s : state) (kw : config) (v r : value) :
  fst (add kw v s) = inr r ->
  exists lr ls, r = Ref lr /\
    assoc_lookup (confid kw) (dict (snd (add kw v s))) = Some (Ref ls) /\
    heap (snd (add kw v s)) !! lr = heap (snd (add kw v s)) !! ls /\
    (lr = ls <-> exists prev xs, assoc_lookup (confid kw) (dict s) = Some prev /\
                                 as_set (heap s) prev = Some xs).
Proof.
  destruct (assoc_lookup (confid kw) (dict s)) as [prev|] eqn:Hl.
  - destruct (as_set (heap s) prev) as [xs|] eqn:Has.
    + destruct prev as [p|l]; [discriminate|].
      assert (Hh : heap s !! l = Some (OSet xs))
        by (simpl in Has; destruct (heap s !! l) as [[]|]; congruence).
      rewrite (add_set s kw v l xs Hl Hh).
      destruct v as [a|l']; simpl; [|done]. intros [= <-].
      exists l, l. split_and!; [done..|]. split; [|done]. intros _. eauto.
    + rewrite (add_promote s kw v prev Hl Has).
      destruct prev as [p|l], v as [a|l']; simpl; try done. intros [= <-].
      destruct (lookup_fresh2 (heap s) (OSet {[p; a]}) (OSet {[p; a]})) as (Hne & H2 & H1).
      eexists _, _. split_and!; [done|apply assoc_lookup_insert_eq|by rewrite H2, H1|].
      split; [done|]. intros (prev' & xs & [= <-] & Hxs). congruence.
  - rewrite (add_new s kw v Hl). destruct v as [a|l']; simpl; [|done]. intros [= <-].
    destruct (lookup_fresh2 (heap s) (OSet {[a]}) (OSet {[a]})) as (Hne & H2 & H1).
    eexists _, _. split_and!; [done|apply assoc_lookup_insert_eq|by rewrite H2, H1|].
    split; [done|]. by intros (prev' & xs & ? & _).
Qed.

Lemma add_result_alias_witness :
  fst (add cfg_en_constr (Atom "y") doctest_state) =
    inr (Ref (fresh (dom (<[fresh (dom (heap doctest_state)) :=
                             OSet {["en-construction"; "y"]}]> (heap doctest_state))))) /\
  exists lr ls,
    Ref (fresh (dom (<[fresh (dom (heap doctest_state)) :=
                         OSet {["en-construction"; "y"]}]> (heap doctest_state)))) = Ref lr /\
    assoc_lookup (confid cfg_en_constr) (dict (snd (add cfg_en_constr (Atom "y") doctest_state)))
      = Some (Ref ls) /\
    heap (snd (add cfg_en_constr (Atom "y") doctest_state)) !! lr =
      heap (snd (add cfg_en_constr (Atom "y") doctest_state)) !! ls /\
    (lr = ls <-> exists prev xs, assoc_lookup (confid cfg_en_constr) (dict doctest_state) = Some prev /\
                                 as_set (heap doctest_state) prev = Some xs).
Proof.
  assert (H : fst (add cfg_en_constr (Atom "y") doctest_state) =
    inr (Ref (fresh (dom (<[fresh (dom (heap doctest_state)) :=
                             OSet {["en-construction"; "y"]}]> (heap doctest_state)))))).
  { vm_compute. reflexivity. }
  exact (conj H (add_result_alias _ _ _ _ H)).
Defined.
